(** * OpenFOAM-LSP: the VS Code client extension (client/src/extension.ts)

    A shallow embedding of the extension's two entry points, [activate] and
    [deactivate], together with the values they build: the server launch
    description ([run], [serverOptions]) and the client options
    ([clientOptions]).  The language client itself comes from the
    vscode-languageclient dependency; it is represented by the calls the
    extension makes on it and by the promises those calls hand back. *)

From stdpp Require Import gmap strings list fin_maps.

Local Open Scope string_scope.
Local Open Scope list_scope.
Local Open Scope nat_scope.

(** ** Values of the vscode-languageclient API that the extension builds *)

(** [ExecutableOptions]: only [cwd] and [env] matter here; a field the
    object literal leaves out is [None]. *)
Record ExecutableOptions := {
  opt_cwd : option string;
  opt_env : option (gmap string string)
}.

(** [Executable]: [{ command, args?, options? }]. *)
Record Executable := {
  exe_command : string;
  exe_args : option (list string);
  exe_options : option ExecutableOptions
}.

(** [ServerOptions] in its [{ run, debug }] form. *)
Record ServerOptions := {
  so_run : Executable;
  so_debug : Executable
}.

(** A [DocumentFilter] with the two fields the extension writes. *)
Record DocumentFilter := {
  df_scheme : option string;
  df_language : option string
}.

(** What [workspace.createFileSystemWatcher(glob)] returns: a watcher
    that remembers its glob pattern. *)
Record FileSystemWatcher := {
  globPattern : string
}.

(** [synchronize.fileEvents] accepts one watcher or an array of them; a
    single watcher is the one-element list. *)
Record SynchronizeOptions := {
  fileEvents : list FileSystemWatcher
}.

Record LanguageClientOptions := {
  documentSelector : list DocumentFilter;
  synchronize : SynchronizeOptions
}.

(** ** The hosting environment *)

(** Settings a host could hold for the server launch.  The extension's
    manifest contributes no configuration and [activate] never asks for
    any; the record exists so that statements can range over them. *)
Record HostConfiguration := {
  cfg_command : string;
  cfg_args : list string;
  cfg_env : gmap string string
}.

(** What is ambient when [activate] runs: [process.env] and the host's
    settings.  ([activate]'s [context] argument is never read.) *)
Record Host := {
  process_env : gmap string string;
  configuration : HostConfiguration
}.

(** ** The launch description built by [activate] (lines 33-46) *)

Definition createFileSystemWatcher (glob : string) : FileSystemWatcher :=
  {| globPattern := glob |}.

Definition command : string :=
  "/Users/laurence/OpenFOAM-LSP/target/release/ofoam_ls".

(** [{ ...process.env, RUST_LOG: "debug" }]: the spread copies every
    variable of [process.env], then the property [RUST_LOG] is written. *)
Definition run_env (host : Host) : gmap string string :=
  <["RUST_LOG" := "debug"]> (process_env host).

Definition run (host : Host) : Executable :=
  {| exe_command := command;
     exe_args := None;
     exe_options := Some {| opt_cwd := None; opt_env := Some (run_env host) |} |}.

Definition serverOptions (host : Host) : ServerOptions :=
  let run := run host in
  {| so_run := run; so_debug := run |}.

Definition clientOptions : LanguageClientOptions :=
  {| documentSelector :=
       [ {| df_scheme := Some "file"; df_language := Some "*" |} ];
     synchronize :=
       {| fileEvents := [ createFileSystemWatcher "**/.clientrc" ] |} |}.

(** The spec's reading of the environment: an overlay merged over the
    inherited environment, the overlay winning where both bind a name. *)
Definition overlay : gmap string string := {[ "RUST_LOG" := "debug" ]}.

Definition merge_over (over inherited : gmap string string) : gmap string string :=
  over ∪ inherited.

(** ** The language client as the extension sees it *)

(** The two methods the extension calls on a [LanguageClient]. *)
Inductive Method := Start | Stop.

Global Instance Method_eq_dec : EqDecision Method.
Proof. solve_decision. Defined.

(** How a promise ends. *)
Inductive Settled :=
  | Fulfilled
  | Rejected (reason : string).

(** The dependency's side of the contract.  [start()] and [stop()] both
    return a promise; how it settles is up to the library, the server
    binary and the operating system, so it is an input of the model: a
    function of the client (its address) and of the calls that client has
    already received. *)
Record Library := {
  start_outcome : nat -> list Method -> Settled;
  stop_outcome : nat -> list Method -> Settled
}.

(** A constructed client: the four constructor arguments and, as a
    record of what the extension did to it, the calls it has received
    (oldest first). *)
Record LanguageClient := {
  lc_id : string;
  lc_name : string;
  lc_serverOptions : ServerOptions;
  lc_clientOptions : LanguageClientOptions;
  lc_calls : list Method
}.

Definition new_LanguageClient (id name : string)
    (so : ServerOptions) (co : LanguageClientOptions) : LanguageClient :=
  {| lc_id := id; lc_name := name;
     lc_serverOptions := so; lc_clientOptions := co; lc_calls := [] |}.

Definition record_call (m : Method) (c : LanguageClient) : LanguageClient :=
  {| lc_id := lc_id c; lc_name := lc_name c;
     lc_serverOptions := lc_serverOptions c;
     lc_clientOptions := lc_clientOptions c;
     lc_calls := lc_calls c ++ [m] |}.

(** ** Module state *)

(** [heap] holds every client object constructed so far, addressed by
    position; [client] is the module-level [let client: LanguageClient],
    [None] while it is still [undefined]. *)
Record State := {
  heap : list LanguageClient;
  client : option nat
}.

Definition initial : State := {| heap := []; client := None |}.

Definition calls_of (h : list LanguageClient) (a : nat) : list Method :=
  default [] (lc_calls <$> h !! a).

(** [c.start()] and [c.stop()] on the object at address [a]: the call is
    recorded on the object and the library's promise is handed back. *)
Definition client_start (L : Library) (a : nat) (h : list LanguageClient)
    : list LanguageClient * Settled :=
  (alter (record_call Start) a h, start_outcome L a (calls_of h a)).

Definition client_stop (L : Library) (a : nat) (h : list LanguageClient)
    : list LanguageClient * Settled :=
  (alter (record_call Stop) a h, stop_outcome L a (calls_of h a)).

(** ** The entry points *)

(** The result of one [activate] call: the state it leaves, the promise
    the [async] function returns to the host, and the promise of
    [client.start()], which the body neither awaits nor returns.  The
    last one is kept only so that statements can speak about it. *)
Record Activation := {
  act_state : State;
  act_returned : Settled;
  act_dropped : Settled
}.

(** How a statement ends, and the promise an [async] function hands
    back for the way its body ended. *)
Inductive Completion :=
  | Normal
  | Throws (e : string).

(** The statement [e;] where [e] evaluates to a promise: the promise is
    discarded, whatever becomes of it. *)
Definition expression_statement (p : Settled) : Completion := Normal.

Definition async_function (body : Completion) : Settled :=
  match body with
  | Normal => Fulfilled
  | Throws e => Rejected e
  end.

(** [activate] (lines 31-69): build the options, construct the client,
    store it in [client], then the statement [client.start();]. *)
Definition activate (L : Library) (host : Host) (s : State) : Activation :=
  let c := new_LanguageClient "ofoam_ls" "ofoam_ls" (serverOptions host) clientOptions in
  let a := length (heap s) in
  let '(h, p) := client_start L a (heap s ++ [c]) in
  {| act_state := {| heap := h; client := Some a |};
     act_returned := async_function (expression_statement p);
     act_dropped := p |}.

(** What [deactivate] returns: [Thenable<void> | undefined]. *)
Inductive Returned :=
  | Undefined
  | Thenable (p : Settled).

(** [deactivate] (lines 71-76). *)
Definition deactivate (L : Library) (s : State) : State * Returned :=
  match client s with
  | None => (s, Undefined)
  | Some a =>
      let '(h, p) := client_stop L a (heap s) in
      ({| heap := h; client := client s |}, Thenable p)
  end.

(** ** Call sequences issued by the host *)

Inductive Call := Activate | Deactivate.

Global Instance Call_eq_dec : EqDecision Call.
Proof. solve_decision. Defined.

Definition step (L : Library) (host : Host) (s : State) (c : Call) : State :=
  match c with
  | Activate => act_state (activate L host s)
  | Deactivate => fst (deactivate L s)
  end.

Definition run_calls (L : Library) (host : Host) (calls : list Call) : State :=
  foldl (step L host) initial calls.

(** A client is alive when it has been started and [stop()] has not been
    called on it. *)
Definition alive (c : LanguageClient) : bool :=
  bool_decide (Start ∈ lc_calls c) && negb (bool_decide (Stop ∈ lc_calls c)).

Definition alive_clients (s : State) : nat :=
  length (filter (fun c => alive c = true) (heap s)).

Definition activations (calls : list Call) : nat :=
  length (filter (fun c => c = Activate) calls).

Definition is_rejected (r : Returned) : bool :=
  match r with
  | Thenable (Rejected _) => true
  | _ => false
  end.

(** ** Predicates on states *)

(** [client] is either still undefined, and then no client was ever
    constructed, or it refers to the client constructed last. *)
Definition tracks_latest (s : State) : Prop :=
  match client s with
  | None => heap s = []
  | Some a => S a = length (heap s)
  end.

(** Every client in the heap was built by [activate]: it carries the
    options [activate] writes and [start()] was its first call. *)
Definition built_by_activate (host : Host) (c : LanguageClient) : Prop :=
  lc_serverOptions c = serverOptions host
  ∧ lc_clientOptions c = clientOptions
  ∧ ∃ later, lc_calls c = Start :: later.

(** ** Two environments to run the model in *)

(** A server that launches and answers both handshakes. *)
Definition responsive : Library :=
  {| start_outcome := fun _ _ => Fulfilled;
     stop_outcome := fun _ _ => Fulfilled |}.

(** No executable at the launch path: [start()] rejects, and so does
    [stop()], the client never having reached its running state. *)
Definition unlaunchable : Library :=
  {| start_outcome := fun _ _ => Rejected "spawn ENOENT";
     stop_outcome := fun _ _ => Rejected "Client is not running and can't be stopped" |}.

Definition host0 : Host :=
  {| process_env := {[ "PATH" := "/usr/bin" ]} ∪ {[ "RUST_LOG" := "warn" ]};
     configuration :=
       {| cfg_command := "mock-server"; cfg_args := [];
          cfg_env := {[ "LOG" := "debug" ]} |} |}.

(** ** Documents and the selector *)

Record TextDocument := {
  doc_scheme : string;
  doc_languageId : string
}.

(** Modelled from the spec: the matcher that tests a document against a
    selector belongs to the host and the dependency, not to this
    repository.  A selector is a set of (scheme, language-id) predicates
    and matches when any predicate matches; a predicate matches when
    each field it gives is the wildcard or equals the document's. *)
Definition field_matches (pat : option string) (v : string) : bool :=
  match pat with
  | None => true
  | Some p => bool_decide (p = "*") || bool_decide (p = v)
  end.

Definition filter_matches (f : DocumentFilter) (d : TextDocument) : bool :=
  field_matches (df_scheme f) (doc_scheme d)
  && field_matches (df_language f) (doc_languageId d).

Definition selector_matches (sel : list DocumentFilter) (d : TextDocument) : bool :=
  existsb (fun f => filter_matches f d) sel.

(** ** Watched files *)

Inductive FileChangeType := Created | Changed | Deleted.

Record FileEvent := {
  fe_path : string;
  fe_type : FileChangeType
}.

(** Glob matching is the host's; it is a parameter: [glob_match pattern
    path].  A watcher reports an event when its pattern matches the
    event's path, and the client forwards what its watchers report. *)
Definition watcher_fires (glob_match : string -> string -> bool)
    (w : FileSystemWatcher) (ev : FileEvent) : bool :=
  glob_match (globPattern w) (fe_path ev).

Definition watched_file_notifications (glob_match : string -> string -> bool)
    (o : LanguageClientOptions) (ev : FileEvent) : list FileEvent :=
  if existsb (fun w => watcher_fires glob_match w ev) (fileEvents (synchronize o))
  then [ev] else [].

(** A matcher for patterns of the shape [**/name] (a file called [name]
    in any folder), enough to run the model on concrete paths. *)
Definition ends_with (suffix s : string) : bool :=
  let n := String.length s in
  let m := String.length suffix in
  (m <=? n)%nat && String.eqb (String.substring (n - m) m s) suffix.

Definition basename_glob (pattern path : string) : bool :=
  if String.prefix "**/" pattern then
    let name := String.substring 3 (String.length pattern - 3) pattern in
    String.eqb path name || ends_with (String.append "/" name) path
  else String.eqb pattern path.

(** ** What a call sequence asks of each client *)

(** The number of [deactivate] calls at the front of a call sequence. *)
Fixpoint leading_deactivations (calls : list Call) : nat :=
  match calls with
  | Deactivate :: rest => S (leading_deactivations rest)
  | _ => 0
  end.

(** One entry per [activate] call, in order: the number of [deactivate]
    calls that follow it before the next [activate]. *)
Fixpoint stops_per_client (calls : list Call) : list nat :=
  match calls with
  | [] => []
  | Activate :: rest => leading_deactivations rest :: stops_per_client rest
  | Deactivate :: rest => stops_per_client rest
  end.

(** The [activate] calls that no [deactivate] follows at once: the next
    call is another [activate], or there is none. *)
Fixpoint unstopped_activations (calls : list Call) : nat :=
  match calls with
  | [] => 0
  | Activate :: rest =>
      match rest with
      | Deactivate :: _ => 0
      | _ => 1
      end + unstopped_activations rest
  | Deactivate :: rest => unstopped_activations rest
  end.

(** No [activate] comes directly after another [activate]. *)
Fixpoint no_double_activate (calls : list Call) : bool :=
  match calls with
  | [] => true
  | Activate :: rest =>
      match rest with
      | Activate :: _ => false
      | _ => no_double_activate rest
      end
  | Deactivate :: rest => no_double_activate rest
  end.

Definition bump_last (l : list nat) : list nat := alter S (length l - 1) l.

(** The calls received by a client that was started and then asked to
    stop [stops] times, and such a client as [activate] builds it. *)
Definition call_log (stops : nat) : list Method := Start :: replicate stops Stop.

Definition client_with_log (host : Host) (stops : nat) : LanguageClient :=
  {| lc_id := "ofoam_ls"; lc_name := "ofoam_ls";
     lc_serverOptions := serverOptions host;
     lc_clientOptions := clientOptions;
     lc_calls := call_log stops |}.

(** The address of the client constructed last, when [n] were. *)
Definition latest (n : nat) : option nat :=
  match n with
  | 0 => None
  | S k => Some k
  end.

(** * Properties *)

(** ** Running call sequences *)

Lemma run_calls_snoc L host calls c :
  run_calls L host (calls ++ [c]) = step L host (run_calls L host calls) c.
Proof. unfold run_calls. by rewrite foldl_snoc. Qed.

Lemma activate_state L host s :
  act_state (activate L host s) =
  {| heap := heap s ++
       [record_call Start
          (new_LanguageClient "ofoam_ls" "ofoam_ls" (serverOptions host) clientOptions)];
     client := Some (length (heap s)) |}.
Proof.
  unfold activate, client_start. cbn [act_state]. f_equal.
  rewrite alter_app_r_alt by lia. by rewrite Nat.sub_diag.
Qed.

Lemma deactivate_client L s : client (fst (deactivate L s)) = client s.
Proof. unfold deactivate, client_stop. by destruct (client s) eqn:E. Qed.

Lemma deactivate_heap_length L s :
  length (heap (fst (deactivate L s))) = length (heap s).
Proof.
  unfold deactivate. destruct (client s); [|done].
  cbn. by rewrite length_alter.
Qed.

Lemma step_tracks_latest L host s c :
  tracks_latest s → tracks_latest (step L host s c).
Proof.
  intros Hs. destruct c; cbn [step].
  - rewrite activate_state. unfold tracks_latest. cbn.
    rewrite length_app. cbn. lia.
  - unfold tracks_latest in *.
    rewrite deactivate_client. destruct (client s) as [a|] eqn:Ha.
    + by rewrite deactivate_heap_length.
    + unfold deactivate. by rewrite Ha.
Qed.

Lemma run_tracks_latest L host calls : tracks_latest (run_calls L host calls).
Proof.
  induction calls as [|c calls IH] using rev_ind.
  - reflexivity.
  - rewrite run_calls_snoc. by apply step_tracks_latest.
Qed.

Lemma activations_snoc calls c :
  activations (calls ++ [c]) =
  match c with
  | Activate => S (activations calls)
  | Deactivate => activations calls
  end.
Proof.
  unfold activations. rewrite filter_app, length_app.
  destruct c.
  - rewrite filter_cons_True by done. cbn. lia.
  - rewrite filter_cons_False by done. cbn. lia.
Qed.

Lemma heap_length_activations L host calls :
  length (heap (run_calls L host calls)) = activations calls.
Proof.
  induction calls as [|c calls IH] using rev_ind; [done|].
  rewrite run_calls_snoc, activations_snoc. destruct c; cbn [step].
  - rewrite activate_state. cbn. rewrite length_app, IH. cbn. lia.
  - by rewrite deactivate_heap_length, IH.
Qed.

Lemma calls_of_alter m h a :
  a < length h →
  calls_of (alter (record_call m) a h) a = calls_of h a ++ [m].
Proof.
  intros Ha. unfold calls_of. rewrite list_lookup_alter_eq.
  destruct (lookup_lt_is_Some_2 h a Ha) as [c ->]. done.
Qed.

(** ** Stopping a session that was never started *)

(** C1. As long as [activate] has not been called, the module is in its
    initial state: [client] is undefined and no client object exists.
    There [deactivate] returns [undefined] and leaves the state as it
    was, so no [client.stop()] is issued. *)
Theorem deactivate_never_started L host (calls : list Call) :
  Activate ∉ calls →
  let s := run_calls L host calls in
  s = initial ∧ deactivate L s = (s, Undefined).
Proof.
  intros Hno. cbn zeta.
  assert (run_calls L host calls = initial) as ->; [|done].
  induction calls as [|c calls IH] using rev_ind; [done|].
  rewrite run_calls_snoc, IH.
  - destruct c; [|done]. exfalso. apply Hno. set_solver.
  - intros Hin. apply Hno. set_solver.
Qed.

Lemma deactivate_never_started_witness :
  (Activate ∉ [Deactivate; Deactivate])
  ∧ (let s := run_calls responsive host0 [Deactivate; Deactivate] in
     s = initial ∧ deactivate responsive s = (s, Undefined)).
Proof.
  assert (Activate ∉ [Deactivate; Deactivate]) as Hno.
  { rewrite !elem_of_cons, elem_of_nil. intros [?|[?|[]]]; discriminate. }
  split; [exact Hno|].
  exact (deactivate_never_started responsive host0 [Deactivate; Deactivate] Hno).
Defined.

(** ** What [deactivate] hands back *)

(** C2, as stated, fails: with a client whose [stop()] rejects, the
    value returned by [deactivate] is that rejected promise. *)
Lemma deactivate_rejection_reaches_host :
  snd (deactivate unlaunchable (run_calls unlaunchable host0 [Activate]))
  = Thenable (Rejected "Client is not running and can't be stopped").
Proof. reflexivity. Qed.

(** C2, amended.  [deactivate] returns [undefined] when there is no
    client and otherwise the very promise of [client.stop()]: it is
    rejected, with the same reason, exactly when [client.stop()] is. *)
Theorem deactivate_returns_stop_promise L s :
  snd (deactivate L s) =
    match client s with
    | None => Undefined
    | Some a => Thenable (stop_outcome L a (calls_of (heap s) a))
    end
  ∧ ∀ e, snd (deactivate L s) = Thenable (Rejected e) ↔
         ∃ a, client s = Some a ∧ stop_outcome L a (calls_of (heap s) a) = Rejected e.
Proof.
  unfold deactivate. destruct (client s) as [a|]; cbn; split; try done.
  - intros e. split.
    + intros [= He]. by exists a.
    + intros (a' & [= <-] & ->). done.
  - intros e. split; [done|]. by intros (a & ? & _).
Qed.

(** ** The launch description *)

(** C3. The environment given to the server process is the overlay
    [{RUST_LOG: "debug"}] merged over [process.env], the overlay
    winning: [RUST_LOG] is ["debug"] whatever was inherited, every other
    variable is as inherited. *)
Theorem run_env_overlay_wins host :
  exe_options (run host) =
    Some {| opt_cwd := None;
            opt_env := Some (merge_over overlay (process_env host)) |}
  ∧ ∀ k, run_env host !! k =
         if decide (k = "RUST_LOG") then Some "debug" else process_env host !! k.
Proof.
  split.
  - unfold run, run_env, merge_over, overlay. cbn.
    by rewrite insert_union_singleton_l.
  - intros k. unfold run_env. rewrite lookup_insert.
    destruct (decide ("RUST_LOG" = k)), (decide (k = "RUST_LOG")); congruence.
Qed.

Example run_env_host0_overrides_inherited_level :
  process_env host0 !! "RUST_LOG" = Some "warn"
  ∧ run_env host0 !! "RUST_LOG" = Some "debug"
  ∧ run_env host0 !! "PATH" = Some "/usr/bin".
Proof. by vm_compute. Qed.

(** C4, as stated, fails: a host configured to launch ["mock-server"]
    still gets the literal path written in [activate]. *)
Lemma configured_command_ignored :
  exe_command (so_run (serverOptions host0)) ≠ cfg_command (configuration host0).
Proof. discriminate. Qed.

(** C4, amended.  The launch description does not depend on the host's
    configuration: the command is the literal path in the source, no
    argument list is given, and the environment overlay is the fixed
    [{RUST_LOG: "debug"}] over [process.env]. *)
Theorem launch_spec_is_fixed penv cfg cfg' :
  let host := {| process_env := penv; configuration := cfg |} in
  exe_command (so_run (serverOptions host))
    = "/Users/laurence/OpenFOAM-LSP/target/release/ofoam_ls"
  ∧ exe_args (so_run (serverOptions host)) = None
  ∧ exe_options (so_run (serverOptions host))
    = Some {| opt_cwd := None; opt_env := Some (<["RUST_LOG" := "debug"]> penv) |}
  ∧ serverOptions {| process_env := penv; configuration := cfg' |} = serverOptions host.
Proof. done. Qed.

(** C9. [serverOptions.debug] is the very [Executable] that
    [serverOptions.run] is: same command, same arguments, same
    environment. *)
Theorem debug_options_are_run_options host :
  so_debug (serverOptions host) = so_run (serverOptions host)
  ∧ so_run (serverOptions host) = run host.
Proof. done. Qed.

(** ** Clients held in the heap *)

Lemma record_call_built host m c :
  built_by_activate host c → built_by_activate host (record_call m c).
Proof.
  intros (Hso & Hco & later & Hcalls). repeat split; [done..|].
  exists (later ++ [m]). cbn. by rewrite Hcalls.
Qed.

Lemma heap_built_by_activate L host calls :
  Forall (built_by_activate host) (heap (run_calls L host calls)).
Proof.
  induction calls as [|c calls IH] using rev_ind; [constructor|].
  rewrite run_calls_snoc. destruct c; cbn [step].
  - rewrite activate_state. cbn [heap]. apply Forall_app. split; [done|].
    apply Forall_singleton. repeat split. by exists [].
  - unfold deactivate, client_stop.
    destruct (client (run_calls L host calls)); [|done].
    cbn. apply Forall_alter; [done|]. intros c _. apply record_call_built.
Qed.

(** [activate] leaves every earlier client as it was and adds one that
    is alive. *)
Lemma activate_adds_alive_client L host s :
  alive_clients (act_state (activate L host s)) = S (alive_clients s).
Proof.
  rewrite activate_state. unfold alive_clients. cbn [heap].
  rewrite filter_app, length_app.
  rewrite filter_cons_True by done. cbn. lia.
Qed.

(** ** The document selector *)

(** C5, as stated, fails: a document that is not on disk (scheme
    [untitled]) is not matched by the selector. *)
Lemma selector_rejects_untitled_document :
  selector_matches (documentSelector clientOptions)
    {| doc_scheme := "untitled"; doc_languageId := "plaintext" |} = false.
Proof. reflexivity. Qed.

(** C5, amended.  The selector is a wildcard over the language only: it
    matches a document, whatever its language-id, exactly when the
    document's scheme is [file]. *)
Theorem selector_matches_file_documents d :
  documentSelector clientOptions
    = [ {| df_scheme := Some "file"; df_language := Some "*" |} ]
  ∧ selector_matches (documentSelector clientOptions) d
    = bool_decide (doc_scheme d = "file").
Proof.
  split; [done|].
  unfold selector_matches, filter_matches, field_matches. cbn.
  rewrite (bool_decide_eq_false_2 ("file" = "*")) by discriminate.
  rewrite (bool_decide_eq_true_2 ("*" = "*")) by done. cbn.
  rewrite andb_true_r, orb_false_r.
  apply bool_decide_ext. split; congruence.
Qed.

(** ** What [activate] hands back *)

(** C6, as stated, fails: when the server cannot be launched the
    promise of [client.start()] is rejected, yet the promise returned by
    [activate] is not. *)
Lemma start_failure_not_surfaced :
  act_dropped (activate unlaunchable host0 initial) = Rejected "spawn ENOENT"
  ∧ act_returned (activate unlaunchable host0 initial) ≠ Rejected "spawn ENOENT".
Proof. split; [reflexivity|discriminate]. Qed.

(** C6, amended.  [activate] constructs the client, calls
    [client.start()] on it and drops that promise: the promise returned
    to the host is fulfilled whether or not launch or handshake fail. *)
Theorem activate_fulfils_regardless L host s :
  let r := activate L host s in
  act_returned r = Fulfilled
  ∧ act_dropped r = start_outcome L (length (heap s)) []
  ∧ client (act_state r) = Some (length (heap s))
  ∧ calls_of (heap (act_state r)) (length (heap s)) = [Start].
Proof.
  cbn zeta. split; [done|]. split.
  - unfold activate, client_start, calls_of. cbn.
    by rewrite lookup_app_r, Nat.sub_diag by lia.
  - rewrite activate_state. cbn. split; [done|].
    unfold calls_of. by rewrite lookup_app_r, Nat.sub_diag by lia.
Qed.

(** ** Watched files *)

Lemma watched_file_notifications_clientrc glob_match ev :
  watched_file_notifications glob_match clientOptions ev =
  if glob_match "**/.clientrc" (fe_path ev) then [ev] else [].
Proof.
  unfold watched_file_notifications, watcher_fires. cbn.
  by rewrite orb_false_r.
Qed.

(** C10. The only watcher handed to the client is the one for
    ["**/.clientrc"]: a file event whose path that pattern does not
    match produces no watched-file notification. *)
Theorem watch_restricted_to_clientrc (glob_match : string → string → bool) ev :
  glob_match "**/.clientrc" (fe_path ev) = false →
  fileEvents (synchronize clientOptions) = [ createFileSystemWatcher "**/.clientrc" ]
  ∧ watched_file_notifications glob_match clientOptions ev = [].
Proof.
  intros Hno. split; [done|].
  by rewrite watched_file_notifications_clientrc, Hno.
Qed.

Lemma watch_restricted_to_clientrc_witness :
  let ev := {| fe_path := "system/controlDict"; fe_type := Changed |} in
  basename_glob "**/.clientrc" (fe_path ev) = false
  ∧ fileEvents (synchronize clientOptions) = [ createFileSystemWatcher "**/.clientrc" ]
  ∧ watched_file_notifications basename_glob clientOptions ev = [].
Proof.
  split; [reflexivity|].
  apply (watch_restricted_to_clientrc basename_glob
           {| fe_path := "system/controlDict"; fe_type := Changed |}).
  reflexivity.
Defined.

(** * Further properties of [activate] and [deactivate] *)

(** ** Counting along a call sequence *)

Lemma leading_app_activate calls rest :
  leading_deactivations (calls ++ Activate :: rest) = leading_deactivations calls.
Proof. induction calls as [|[] calls IH]; cbn; by rewrite ?IH. Qed.

Lemma leading_snoc_deactivate calls :
  leading_deactivations (calls ++ [Deactivate]) =
  match stops_per_client calls with
  | [] => S (leading_deactivations calls)
  | _ => leading_deactivations calls
  end.
Proof.
  induction calls as [|[] calls IH]; cbn; [done..|].
  rewrite IH. by destruct (stops_per_client calls).
Qed.

Lemma leading_replicate k :
  leading_deactivations (replicate k Deactivate) = k.
Proof. induction k; cbn; by rewrite ?IHk. Qed.

Lemma stops_app_activate calls rest :
  stops_per_client (calls ++ Activate :: rest) =
  stops_per_client calls ++ stops_per_client (Activate :: rest).
Proof.
  induction calls as [|[] calls IH]; [done| |done].
  cbn [app stops_per_client]. by rewrite leading_app_activate, IH.
Qed.

Lemma stops_snoc_deactivate calls :
  stops_per_client (calls ++ [Deactivate]) = bump_last (stops_per_client calls).
Proof.
  induction calls as [|[] calls IH]; [done| |done].
  cbn [app stops_per_client]. rewrite IH, leading_snoc_deactivate.
  destruct (stops_per_client calls) as [|n l]; [done|].
  unfold bump_last. cbn. by rewrite !Nat.sub_0_r.
Qed.

Lemma stops_replicate k : stops_per_client (replicate k Deactivate) = [].
Proof. by induction k. Qed.

Lemma stops_length calls : length (stops_per_client calls) = activations calls.
Proof.
  unfold activations. induction calls as [|[] calls IH]; [done| |].
  - rewrite filter_cons_True by done. cbn. by rewrite IH.
  - by rewrite filter_cons_False by done.
Qed.

Lemma activations_app calls rest :
  activations (calls ++ rest) = activations calls + activations rest.
Proof. unfold activations. by rewrite filter_app, length_app. Qed.

Lemma activations_replicate k : activations (replicate k Deactivate) = 0.
Proof. by rewrite <- stops_length, stops_replicate. Qed.

Lemma activations_none calls : activations calls = 0 ↔ Activate ∉ calls.
Proof.
  unfold activations. induction calls as [|[] calls IH].
  - split; [|done]. intros _. apply not_elem_of_nil.
  - rewrite filter_cons_True by done. split; [done|].
    intros Hno. exfalso. apply Hno. by left.
  - rewrite filter_cons_False by done. rewrite IH, not_elem_of_cons.
    split; [by split|by intros [_ ?]].
Qed.

Lemma client_with_log_stop host n :
  client_with_log host (S n) = record_call Stop (client_with_log host n).
Proof.
  unfold client_with_log, record_call, call_log. cbn. f_equal.
  by rewrite <- replicate_cons_app.
Qed.

(** ** The heap in closed form *)

(** After any call sequence the heap holds one client per [activate],
    each started once and asked to stop once for every [deactivate] that
    came before the next [activate]. *)
Lemma heap_closed_form L host calls :
  heap (run_calls L host calls) = client_with_log host <$> stops_per_client calls.
Proof.
  induction calls as [|c calls IH] using rev_ind; [done|].
  rewrite run_calls_snoc. destruct c; cbn [step].
  - rewrite activate_state, stops_app_activate, fmap_app, IH. done.
  - rewrite stops_snoc_deactivate.
    pose proof (run_tracks_latest L host calls) as Hwf.
    unfold tracks_latest in Hwf. unfold deactivate, client_stop.
    destruct (client (run_calls L host calls)) as [a|].
    + cbn [fst heap]. rewrite IH in Hwf |- *. rewrite length_fmap in Hwf.
      unfold bump_last. replace (length (stops_per_client calls) - 1) with a by lia.
      symmetry. apply list_fmap_alter, Forall_forall.
      intros n _. apply client_with_log_stop.
    + cbn [fst]. rewrite IH in Hwf. apply fmap_nil_inv in Hwf.
      by rewrite IH, Hwf.
Qed.

Lemma client_closed_form L host calls :
  client (run_calls L host calls) = latest (activations calls).
Proof.
  pose proof (run_tracks_latest L host calls) as Hwf.
  pose proof (heap_length_activations L host calls) as Hlen.
  unfold tracks_latest in Hwf.
  destruct (client (run_calls L host calls)) as [a|].
  - rewrite <- Hlen, <- Hwf. done.
  - by rewrite <- Hlen, Hwf.
Qed.

Lemma alive_client_with_log host n :
  alive (client_with_log host (S n)) = false.
Proof.
  unfold alive. cbn. apply andb_false_intro2, negb_false_iff.
  apply bool_decide_eq_true_2. unfold call_log. cbn. set_solver.
Qed.

(** ** Alive clients in closed form *)

Lemma alive_filter_closed_form host (l : list nat) :
  length (filter (fun c => alive c = true) (client_with_log host <$> l))
  = length (filter (fun n => n = 0) l).
Proof.
  induction l as [|[|n] l IH]; [done| |].
  - rewrite fmap_cons, !filter_cons_True by done. cbn. by rewrite IH.
  - rewrite fmap_cons, !filter_cons_False; [done|lia|].
    by rewrite alive_client_with_log.
Qed.

Lemma unstopped_activations_stops calls :
  unstopped_activations calls
  = length (filter (fun n => n = 0) (stops_per_client calls)).
Proof.
  induction calls as [|[] rest IH]; [done| |done].
  cbn [unstopped_activations stops_per_client]. rewrite IH.
  destruct rest as [|[] r]; cbn [leading_deactivations].
  - by rewrite filter_cons_True by done.
  - by rewrite filter_cons_True by done.
  - rewrite filter_cons_False by lia. done.
Qed.

Lemma alive_clients_closed_form L host calls :
  alive_clients (run_calls L host calls) = unstopped_activations calls.
Proof.
  unfold alive_clients.
  by rewrite heap_closed_form, alive_filter_closed_form, unstopped_activations_stops.
Qed.

Lemma no_double_activate_unstopped calls :
  no_double_activate calls = true → unstopped_activations calls ≤ 1.
Proof.
  induction calls as [|[] rest IH]; cbn [no_double_activate unstopped_activations].
  - lia.
  - destruct rest as [|[] r]; [cbn; lia|discriminate|].
    intros Hr. specialize (IH Hr). lia.
  - done.
Qed.

(** ** Stopping twice *)

(** C7, as stated, fails: after [activate], a second [deactivate] calls
    [client.stop()] once more, which leaves the client with one more
    stop request than a single [deactivate] does, and the promise it
    returns is rejected when that second [stop()] is. *)
Lemma second_deactivate_stops_again :
  let s1 := run_calls unlaunchable host0 [Activate; Deactivate] in
  let s2 := run_calls unlaunchable host0 [Activate; Deactivate; Deactivate] in
  s2 ≠ s1 ∧ is_rejected (snd (deactivate unlaunchable s1)) = true.
Proof.
  split; [|reflexivity].
  intros H. apply (f_equal (fun s => calls_of (heap s) 0)) in H.
  vm_compute in H. discriminate.
Qed.

(** C7, amended.  [deactivate] never changes [client], in any state:
    the reference after two calls is the one after a single call and the
    one before them, the client constructed last.  With no client both
    calls return [undefined] and change nothing.  With a client the
    second call is not a no-op: it calls [client.stop()] on the same
    client again, which records one more stop request on that client and
    touches no other, and it returns the promise of that call. *)
Theorem second_deactivate_repeats_stop L host calls :
  let s0 := run_calls L host calls in
  let s1 := run_calls L host (calls ++ [Deactivate]) in
  let s2 := run_calls L host (calls ++ [Deactivate; Deactivate]) in
  (∀ s, client (fst (deactivate L s)) = client s)
  ∧ client s1 = client s0
  ∧ client s2 = client s1
  ∧ client s0 = latest (activations calls)
  ∧ match client s1 with
    | None => s1 = s0 ∧ s2 = s1 ∧ snd (deactivate L s1) = Undefined
    | Some a =>
        snd (deactivate L s1) = Thenable (stop_outcome L a (calls_of (heap s1) a))
        ∧ Stop ∈ calls_of (heap s1) a
        ∧ calls_of (heap s1) a = calls_of (heap s0) a ++ [Stop]
        ∧ calls_of (heap s2) a = calls_of (heap s1) a ++ [Stop]
        ∧ s2 ≠ s1
        ∧ ∀ b, b ≠ a → heap s2 !! b = heap s1 !! b
    end.
Proof.
  cbn zeta.
  replace (calls ++ [Deactivate; Deactivate])
    with ((calls ++ [Deactivate]) ++ [Deactivate]) by by rewrite <- app_assoc.
  rewrite (run_calls_snoc _ _ (calls ++ [Deactivate])). cbn [step].
  pose proof (run_tracks_latest L host (calls ++ [Deactivate])) as Hwf1.
  pose proof (run_tracks_latest L host calls) as Hwf0.
  pose proof (client_closed_form L host calls) as Hlatest.
  rewrite run_calls_snoc in *. cbn [step] in *.
  set (s0 := run_calls L host calls) in *.
  set (s1 := fst (deactivate L s0)) in *.
  split; [intros s; apply deactivate_client|].
  split; [apply deactivate_client|].
  split; [apply deactivate_client|].
  split; [done|].
  assert (client s1 = client s0) as Hc by apply deactivate_client.
  unfold tracks_latest in Hwf0, Hwf1.
  destruct (client s1) as [a|] eqn:Ha.
  - rewrite <- Hc in Hwf0.
    assert (heap s1 = alter (record_call Stop) a (heap s0)) as Hh1.
    { subst s1. unfold deactivate, client_stop. by rewrite <- Hc. }
    assert (a < length (heap s0)) as Hlt0 by lia.
    assert (calls_of (heap (fst (deactivate L s1))) a
            = calls_of (heap s1) a ++ [Stop]) as Hlog2.
    { unfold deactivate, client_stop. rewrite Ha. cbn.
      apply calls_of_alter. lia. }
    split; [unfold deactivate, client_stop; by rewrite Ha|].
    split; [rewrite Hh1, calls_of_alter by done; set_solver|].
    split; [by rewrite Hh1, calls_of_alter|].
    split; [done|].
    split.
    + intros Heq. rewrite Heq in Hlog2.
      apply (f_equal length) in Hlog2. rewrite length_app in Hlog2.
      cbn in Hlog2. lia.
    + intros b Hb. unfold deactivate, client_stop. rewrite Ha. cbn.
      by apply list_lookup_alter_ne.
  - assert (s1 = s0) as Hs1.
    { subst s1. unfold deactivate. by rewrite <- Hc. }
    split; [done|]. unfold deactivate. by rewrite Ha.
Qed.

(** ** How many clients are alive *)

(** C8, as stated, fails: a second [activate] constructs and starts a
    second client while the first is still running. *)
Lemma second_activate_leaves_two_alive :
  ¬ alive_clients (run_calls responsive host0 [Activate; Activate]) ≤ 1.
Proof. vm_compute. lia. Qed.

(** C8, amended.  The module tracks one reference, which after every
    call sequence is to the client constructed last, and one client is
    constructed per [activate].  A started client stays alive until
    [deactivate] is called while it is the tracked one, so the clients
    alive are those of the [activate] calls that no [deactivate] follows
    at once.  Hence at most one started client exists whenever no
    [activate] comes directly after another [activate] (in particular
    when there is at most one); an [activate] directly after an
    [activate] leaves two. *)
Theorem single_reference_and_alive_clients L host calls :
  let s := run_calls L host calls in
  client s = latest (activations calls)
  ∧ tracks_latest s
  ∧ length (heap s) = activations calls
  ∧ alive_clients s = unstopped_activations calls
  ∧ (no_double_activate calls = true → alive_clients s ≤ 1)
  ∧ (activations calls ≤ 1 → alive_clients s ≤ 1)
  ∧ 2 ≤ alive_clients (run_calls L host (calls ++ [Activate; Activate])).
Proof.
  cbn zeta.
  pose proof (heap_length_activations L host calls) as Hlen.
  pose proof (alive_clients_closed_form L host calls) as Halive.
  split; [apply client_closed_form|].
  split; [apply run_tracks_latest|].
  split; [done|]. split; [done|]. split; [|split].
  - intros Hno. rewrite Halive. by apply no_double_activate_unstopped.
  - intros Hone. unfold alive_clients.
    etransitivity; [apply length_filter|lia].
  - replace (calls ++ [Activate; Activate])
      with ((calls ++ [Activate]) ++ [Activate]) by by rewrite <- app_assoc.
    rewrite !run_calls_snoc. cbn [step].
    rewrite !activate_adds_alive_client. lia.
Qed.

Lemma single_reference_and_alive_clients_witness :
  no_double_activate [Activate; Deactivate; Activate] = true
  ∧ activations [Activate; Deactivate; Activate] = 2
  ∧ alive_clients (run_calls responsive host0 [Activate; Deactivate; Activate]) ≤ 1.
Proof.
  split; [reflexivity|]. split; [reflexivity|].
  destruct (single_reference_and_alive_clients responsive host0
              [Activate; Deactivate; Activate]) as (_ & _ & _ & _ & Hone & _).
  apply Hone. reflexivity.
Defined.

(** ** What any call sequence leaves behind *)

(** X1. The module state after any sequence of [activate] and
    [deactivate] calls, in closed form: one client per [activate], each
    with the options [activate] writes, started exactly once and asked
    to stop once per [deactivate] issued before the next [activate];
    [client] refers to the one constructed last. *)
Theorem run_calls_closed_form L host calls :
  run_calls L host calls =
  {| heap := client_with_log host <$> stops_per_client calls;
     client := latest (activations calls) |}.
Proof.
  pose proof (heap_closed_form L host calls) as Hh.
  pose proof (client_closed_form L host calls) as Hc.
  destruct (run_calls L host calls) as [h c]. cbn in *. by subst.
Qed.

(** X2. [client] is never reset: [deactivate] returns [undefined]
    exactly when no [activate] call came before it.  After even one
    [activate], every [deactivate] calls [client.stop()]. *)
Theorem deactivate_undefined_iff_never_activated L host calls :
  snd (deactivate L (run_calls L host calls)) = Undefined ↔ Activate ∉ calls.
Proof.
  rewrite <- activations_none. unfold deactivate, client_stop.
  rewrite client_closed_form.
  destruct (activations calls); cbn; split; done.
Qed.

(** X3. An [activate] starts afresh and leaves the past untouched: the
    clients constructed before it stay exactly as they were at that
    moment, whatever is called afterwards, and the clients constructed
    from it on are those a fresh module would hold. *)
Theorem activate_starts_afresh L host calls rest :
  heap (run_calls L host (calls ++ Activate :: rest)) =
  heap (run_calls L host calls) ++ heap (run_calls L host (Activate :: rest)).
Proof. by rewrite !heap_closed_form, stops_app_activate, fmap_app. Qed.

(** X4. With at most one [activate] in the sequence, a [deactivate]
    leaves no client alive. *)
Theorem deactivate_leaves_none_alive L host calls :
  activations calls ≤ 1 →
  alive_clients (run_calls L host (calls ++ [Deactivate])) = 0.
Proof.
  intros Hone. unfold alive_clients.
  rewrite heap_closed_form, stops_snoc_deactivate.
  rewrite <- stops_length in Hone.
  destruct (stops_per_client calls) as [|n [|m l]]; [done| |cbn in Hone; lia].
  unfold bump_last. cbn.
  rewrite alive_client_with_log. by case_decide.
Qed.

Lemma deactivate_leaves_none_alive_witness :
  activations [Deactivate; Activate; Deactivate] ≤ 1
  ∧ alive_clients
      (run_calls unlaunchable host0 ([Deactivate; Activate; Deactivate] ++ [Deactivate])) = 0.
Proof.
  assert (activations [Deactivate; Activate; Deactivate] ≤ 1) as Hone.
  { vm_compute. lia. }
  split; [exact Hone|].
  exact (deactivate_leaves_none_alive unlaunchable host0
           [Deactivate; Activate; Deactivate] Hone).
Defined.

(** X5. The [k+1]-th [deactivate] in a row after an [activate] returns
    the promise of [client.stop()] on the client that [activate]
    constructed, a client that has been started once and already asked
    to stop [k] times. *)
Theorem repeated_deactivate_returns L host calls k :
  snd (deactivate L
         (run_calls L host (calls ++ Activate :: replicate k Deactivate)))
  = Thenable (stop_outcome L (activations calls) (call_log k)).
Proof.
  unfold deactivate, client_stop.
  rewrite client_closed_form, heap_closed_form.
  rewrite activations_app, stops_app_activate. cbn [stops_per_client].
  rewrite leading_replicate, stops_replicate.
  replace (activations (Activate :: replicate k Deactivate)) with 1
    by (change (Activate :: replicate k Deactivate)
          with ([Activate] ++ replicate k Deactivate);
        by rewrite activations_app, activations_replicate).
  rewrite Nat.add_1_r. cbn [latest snd]. do 2 f_equal.
  unfold calls_of. rewrite list_lookup_fmap, lookup_app_r, stops_length by
    (rewrite stops_length; lia).
  by rewrite Nat.sub_diag.
Qed.

(** X6. How the promises of [start()] and [stop()] settle has no
    influence on the module: the state after a call sequence is the same
    under any two behaviours of the library.  A failed launch is neither
    retried nor cleaned up, and [client] keeps referring to that
    client. *)
Theorem state_ignores_outcomes L L' host calls :
  run_calls L host calls = run_calls L' host calls.
Proof.
  induction calls as [|c calls IH] using rev_ind; [done|].
  rewrite !run_calls_snoc, IH. destruct c; cbn [step].
  - by rewrite !activate_state.
  - unfold deactivate, client_stop.
    by destruct (client (run_calls L' host calls)).
Qed.
